(** * oxide.ts, [src/option.ts]: the [Option] type and its combinators

    The module is JavaScript: values are untyped, objects have identity,
    [===] is identity on objects and is irreflexive on [NaN], a call may
    throw.  The embedding keeps all four: a small universe of values,
    a heap of objects addressed by references, strict equality as a
    boolean function, and a state-and-exception monad [M] in which
    every function of the module is written. *)

From stdpp Require Import gmap strings list.

(** ** Values and objects *)

(** A JavaScript number.  The only floating point fact the module relies
    on is that [NaN] differs from itself; finite numbers are integers
    here. *)
Inductive number :=
  | NaN
  | Num (z : Z).

Abbreviation addr := nat.

Inductive value :=
  | VUndefined
  | VNull
  | VBool (b : bool)
  | VNumber (n : number)
  | VString (s : string)
  | VRef (a : addr).

(** What a reference points to.  An [OptionType] instance has exactly the
    two fields [[Val]] and [[Is]] set by the constructor; it is frozen
    there, so no operation of the model ever updates an [OOption].  An
    error object records the class it is an instance of; the message of
    an error that the runtime creates is chosen by the engine and is left
    out. *)
Inductive object :=
  | OOption (val : value) (is_some : bool)
  | OResult (val : value) (is_ok : bool)
  | OError (cls message : string)
  | ORuntimeError (cls : string)
  | OArray (elems : list value)
  | OOther.

Abbreviation heap := (gmap addr object).

Global Instance number_eq_dec : EqDecision number.
Proof. solve_decision. Defined.
Global Instance value_eq_dec : EqDecision value.
Proof. solve_decision. Defined.
Global Instance object_eq_dec : EqDecision object.
Proof. solve_decision. Defined.

(** [x === y] *)
Definition strict_eq (x y : value) : bool :=
  match x, y with
  | VUndefined, VUndefined => true
  | VNull, VNull => true
  | VBool a, VBool b => bool_decide (a = b)
  | VNumber (Num a), VNumber (Num b) => bool_decide (a = b)
  | VString a, VString b => bool_decide (a = b)
  | VRef a, VRef b => bool_decide (a = b)
  | _, _ => false
  end.

(** The condition of [c ? a : b] and of [if (c)]: JavaScript's ToBoolean. *)
Definition truthy (v : value) : bool :=
  match v with
  | VUndefined | VNull => false
  | VBool b => b
  | VNumber NaN => false
  | VNumber (Num z) => negb (bool_decide (z = 0%Z))
  | VString s => negb (bool_decide (s = EmptyString))
  | VRef _ => true
  end.

(** ** Computations *)

Inductive completion (A : Type) :=
  | Normal (a : A)
  | Throw (e : value).
Arguments Normal {A} a.
Arguments Throw {A} e.

Definition M (A : Type) : Type := heap → completion A * heap.

Global Instance M_ret : MRet M := λ A a h, (Normal a, h).

Global Instance M_bind : MBind M := λ A B k m h,
  match m h with
  | (Normal a, h') => k a h'
  | (Throw e, h') => (Throw e, h')
  end.

(** [throw e] *)
Definition throw {A} (e : value) : M A := λ h, (Throw e, h).

(** [try { body } catch (err) { handler(err) }] *)
Definition try_catch {A} (body : M A) (handler : value → M A) : M A := λ h,
  match body h with
  | (Normal a, h') => (Normal a, h')
  | (Throw e, h') => handler e h'
  end.

(** A new object gets an address that no object of the heap has. *)
Definition fresh_addr (h : heap) : addr := fresh (dom h).

Definition alloc (o : object) : M value := λ h,
  (Normal (VRef (fresh_addr h)), <[fresh_addr h := o]> h).

Definition deref (v : value) : M (option object) := λ h,
  (Normal (match v with VRef a => h !! a | _ => None end), h).

(** The [TypeError] the runtime raises when a property of [null] or
    [undefined] is read, or when something that is not a function is
    called. *)
Definition throw_TypeError {A} : M A :=
  e ← alloc (ORuntimeError "TypeError"); throw e.

(** [new Error(msg)] *)
Definition new_Error (msg : string) : M value := alloc (OError "Error" msg).

(** ** The class [OptionType] *)

(** [new OptionType(val, some)]: the two fields are set and the instance
    is frozen. *)
Definition new_OptionType (val : value) (some : bool) : M value :=
  alloc (OOption val some).

(** [o[Is]] and [o[Val]].  [Is] and [Val] are symbols private to the
    module, so only [OptionType] instances carry them: reading them off
    any other object or off a primitive gives [undefined], and reading
    them off [null] or [undefined] raises. *)
Definition get_Is (o : value) : M value :=
  match o with
  | VUndefined | VNull => throw_TypeError
  | _ =>
      ob ← deref o;
      mret (match ob with Some (OOption _ b) => VBool b | _ => VUndefined end)
  end.

Definition get_Val (o : value) : M value :=
  match o with
  | VUndefined | VNull => throw_TypeError
  | _ =>
      ob ← deref o;
      mret (match ob with Some (OOption v _) => v | _ => VUndefined end)
  end.

(** [v instanceof OptionType] *)
Definition instanceof_OptionType (v : value) : M bool :=
  ob ← deref v;
  mret (match ob with Some (OOption _ _) => true | _ => false end).

(** [export const None = new OptionType<never>(undefined as never, false)]
    is evaluated once, when the module is loaded; [None] names that one
    instance from then on. *)
Definition none_addr : addr := 0.
Definition None_ : value := VRef none_addr.
Definition init_heap : heap := {[ none_addr := OOption VUndefined false ]}.

(** Modelled from the spec: the constructors [Ok] and [Err] of
    [./result], which [okOr] and [okOrElse] import and which is not part
    of the sources at hand.  A [Result] is a discriminant and one
    payload, built once and never changed. *)
Definition Ok (v : value) : M value := alloc (OResult v true).
Definition Err (e : value) : M value := alloc (OResult e false).

(** A function of no argument, called as [f()]. *)
Abbreviation thunk := (M value).

Module OptionType.

Definition is_ (this cmp : value) : M value :=
  c ← instanceof_OptionType cmp;
  if c : bool then
    a ← get_Is this; b ← get_Is cmp; mret (VBool (strict_eq a b))
  else mret (VBool false).

Definition into (this : value) : M value :=
  b ← get_Is this;
  if truthy b then get_Val this else mret VNull.

Definition eq (this cmp : value) : M value :=
  a ← get_Is this; b ← get_Is cmp;
  if strict_eq a b then
    x ← get_Val this; y ← get_Val cmp; mret (VBool (strict_eq x y))
  else mret (VBool false).

Definition neq (this cmp : value) : M value :=
  a ← get_Is this; b ← get_Is cmp;
  if negb (strict_eq a b) then mret (VBool true)
  else
    x ← get_Val this; y ← get_Val cmp; mret (VBool (negb (strict_eq x y))).

Definition isSome (this : value) : M value := get_Is this.

Definition isNone (this : value) : M value :=
  b ← get_Is this; mret (VBool (negb (truthy b))).

Definition expect (this : value) (msg : string) : M value :=
  b ← get_Is this;
  if truthy b then get_Val this
  else e ← new_Error msg; throw e.

Definition unwrap (this : value) : M value :=
  expect this "Failed to unwrap Option (found None)".

Definition unwrapOr (this def : value) : M value :=
  b ← get_Is this;
  if truthy b then get_Val this else mret def.

Definition unwrapOrElse (this : value) (f : thunk) : M value :=
  b ← get_Is this;
  if truthy b then get_Val this else f.

Definition unwrapUnchecked (this : value) : M value := get_Val this.

Definition or (this optb : value) : M value :=
  b ← get_Is this;
  if truthy b then mret this else mret optb.

Definition orElse (this : value) (f : thunk) : M value :=
  b ← get_Is this;
  if truthy b then mret this else f.

Definition and (this optb : value) : M value :=
  b ← get_Is this;
  if truthy b then mret optb else mret None_.

Definition andThen (this : value) (f : value → M value) : M value :=
  b ← get_Is this;
  if truthy b then v ← get_Val this; f v else mret None_.

Definition map (this : value) (f : value → M value) : M value :=
  b ← get_Is this;
  if truthy b then
    v ← get_Val this; u ← f v; new_OptionType u true
  else mret None_.

Definition mapOr (this def : value) (f : value → M value) : M value :=
  b ← get_Is this;
  if truthy b then v ← get_Val this; f v else mret def.

Definition mapOrElse (this : value) (def : thunk) (f : value → M value)
    : M value :=
  b ← get_Is this;
  if truthy b then v ← get_Val this; f v else def.

Definition okOr (this err : value) : M value :=
  b ← get_Is this;
  if truthy b then v ← get_Val this; Ok v else Err err.

Definition okOrElse (this : value) (f : thunk) : M value :=
  b ← get_Is this;
  if truthy b then v ← get_Val this; Ok v else e ← f; Err e.

End OptionType.

(** ** The exported functions *)

(** [Some(val)] *)
Definition Some_ (val : value) : M value := new_OptionType val true.

(** [recv.m(...)] for a method [m] of the class.  The methods live on
    [OptionType.prototype]; a receiver that is not an instance has none
    of them ([OOther] stands for objects without these properties), and
    calling what is not there raises. *)
Definition invoke {A} (m : value → M A) (recv : value) : M A :=
  c ← instanceof_OptionType recv;
  if c : bool then m recv else throw_TypeError.

(** [arr.push(v)] *)
Definition push (arr v : value) : M () := λ h,
  match arr with
  | VRef a =>
      match h !! a with
      | Some (OArray elems) => (Normal (), <[a := OArray (elems ++ [v])]> h)
      | _ => throw_TypeError h
      end
  | _ => throw_TypeError h
  end.

Module Option.

(** The static [Option.is] *)
Definition is_ (val : value) : M value :=
  c ← instanceof_OptionType val; mret (VBool c).

Definition from (val : value) : M value :=
  if strict_eq val VUndefined || strict_eq val VNull
     || negb (strict_eq val val)
  then mret None_
  else Some_ val.

(** The function form of [safe]: [fn] is a function, so the test
    [fn instanceof Promise] fails and the [try] block runs.  The
    promise form is asynchronous and has no counterpart here. *)
Definition safe (fn : list value → M value) (args : list value) : M value :=
  try_catch (r ← fn args; Some_ r) (λ err, mret None_).

(** The body of [for (const option of options)] in [all], with the
    array [some] allocated before the loop. *)
Fixpoint all_loop (some : value) (options : list value) : M value :=
  match options with
  | [] => Some_ some
  | option :: rest =>
      b ← invoke OptionType.isSome option;
      if truthy b then
        v ← invoke OptionType.unwrapUnchecked option;
        push some v;;
        all_loop some rest
      else mret None_
  end.

Definition all (options : list value) : M value :=
  some ← alloc (OArray []);
  all_loop some options.

Fixpoint any (options : list value) : M value :=
  match options with
  | [] => mret None_
  | option :: rest =>
      b ← invoke OptionType.isSome option;
      if truthy b then mret option else any rest
  end.

End Option.

(** [Option(val)], the type called as a function. *)
Definition Option (val : value) : M value := Option.from val.

(** ** Programs of the documentation and of the laws *)

(** The function of the documentation of [safe]: it throws when called
    with [true] and returns a string otherwise. *)
Definition mightThrow (args : list value) : M value :=
  match args with
  | throws :: _ =>
      if truthy throws then e ← new_Error "Throw"; throw e
      else mret (VString "Hello World")
  | [] => mret (VString "Hello World")
  end.

(** The heap of the documented scenario: the module's [None], and
    [Some(20)] and [Some(30)] made after it. *)
Definition scenario_heap : heap :=
  <[2 := OOption (VNumber (Num 30)) true]>
    (<[1 := OOption (VNumber (Num 20)) true]> init_heap).

(** [x.map(v => v).eq(x)] *)
Definition map_identity (x : value) : M value :=
  y ← OptionType.map x (λ v, mret v);
  OptionType.eq y x.

(** [x.map(f).map(g)], [x.map(v => g(f(v)))], and the two compared. *)
Definition map_map (x : value) (f g : value → M value) : M value :=
  y ← OptionType.map x f;
  OptionType.map y g.

Definition map_composed (x : value) (f g : value → M value) : M value :=
  OptionType.map x (λ v, u ← f v; g u).

Definition map_composition (x : value) (f g : value → M value) : M value :=
  l ← map_map x f g;
  r ← map_composed x f g;
  OptionType.eq l r.

(** ** Vocabulary of the statements *)

(** The computation returns, it does not throw. *)
Definition returns {A} (m : M A) (h : heap) : Prop :=
  ∃ a h', m h = (Normal a, h').

(** [e] is, in [h], an instance of the error class [cls] with message
    [msg]. *)
Definition is_error (h : heap) (e : value) (cls msg : string) : Prop :=
  ∃ a, e = VRef a ∧ h !! a = Some (OError cls msg).

(** The computation throws a new instance of [cls] carrying [msg]. *)
Definition raises {A} (m : M A) (h : heap) (cls msg : string) : Prop :=
  ∃ a h',
    m h = (Throw (VRef a), h') ∧ h !! a = None ∧
    h' !! a = Some (OError cls msg).

(** [x] is, in [h], an instance of [OptionType]. *)
Definition is_instance (h : heap) (x : value) : Prop :=
  ∃ a v b, x = VRef a ∧ h !! a = Some (OOption v b).

(** [x] is a [Some] holding [v]; [x] is a [None]. *)
Definition is_Some_of (h : heap) (x v : value) : Prop :=
  ∃ a, x = VRef a ∧ h !! a = Some (OOption v true).

Definition is_None_in (h : heap) (x : value) : Prop :=
  ∃ a v, x = VRef a ∧ h !! a = Some (OOption v false).

(** The module has been loaded: [None] is there. *)
Definition loaded (h : heap) : Prop :=
  h !! none_addr = Some (OOption VUndefined false).

(** The Options a program can hold: the instances made by [Some] and by
    [map], and the one [None]; the class itself is not exported. *)
Inductive option_in (h : heap) : value → value → bool → Prop :=
  | option_in_Some a v :
      h !! a = Some (OOption v true) → option_in h (VRef a) v true
  | option_in_None :
      loaded h → option_in h None_ VUndefined false.

(** What [from] takes for the absence of a value. *)
Definition absent (v : value) : Prop :=
  v = VUndefined ∨ v = VNull ∨ v = VNumber NaN.

(** Frozen instances survive whatever runs: they are neither changed nor
    removed. *)
Definition keeps_instances (h h' : heap) : Prop :=
  ∀ a v b, h !! a = Some (OOption v b) → h' !! a = Some (OOption v b).

(** [m] returns [r] every time it is run, whatever the heap. *)
Definition yields (m : M value) (r : value) : Prop :=
  ∀ h, ∃ h', m h = (Normal r, h') ∧ keeps_instances h h'.

(** ** Relations between the heap before and the heap after a call *)

(** Every instance of [h'] whose discriminant is false was one of [h]
    already: no second [None] has been made. *)
Definition no_new_None (h h' : heap) : Prop :=
  ∀ a v, h' !! a = Some (OOption v false) → h !! a = Some (OOption v false).


(** What a call may do to the instances: it leaves those there are as
    they are, and it makes no [None]. *)
Definition frozen_step (h h' : heap) : Prop :=
  keeps_instances h h' ∧ no_new_None h h'.

(** However [m] ends, the heap it leaves is related by [R] to the heap
    it started in. *)
Definition respects (R : heap → heap → Prop) {A} (m : M A) : Prop :=
  ∀ h r h', m h = (r, h') → R h h'.


(** ** The heaps of the examples are heaps of the program *)

Example module_load :
  new_OptionType VUndefined false ∅ = (Normal None_, init_heap).
Proof. reflexivity. Qed.

Example scenario_run :
  (x ← Some_ (VNumber (Num 20)); y ← Some_ (VNumber (Num 30)); mret [x; y])
    init_heap
  = (Normal [VRef 1; VRef 2], scenario_heap).
Proof. reflexivity. Qed.

(** ** Primitive steps *)

Lemma fresh_addr_None (h : heap) : h !! fresh_addr h = None.
Proof. apply (not_elem_of_dom (D := gset addr)), (is_fresh (dom h)). Qed.

Lemma fresh_addr_ne (h : heap) (a : addr) (o : object) :
  h !! a = Some o → fresh_addr h ≠ a.
Proof. intros Ha Heq. rewrite <- Heq, fresh_addr_None in Ha. discriminate. Qed.

Lemma bind_Normal {A B} (m : M A) (k : A → M B) h a h' :
  m h = (Normal a, h') → (m ≫= k) h = k a h'.
Proof. unfold mbind, M_bind. by intros ->. Qed.

Lemma get_Is_instance h a v b :
  h !! a = Some (OOption v b) → get_Is (VRef a) h = (Normal (VBool b), h).
Proof. intros Ha. unfold get_Is, deref, mbind, M_bind, mret, M_ret. by rewrite Ha. Qed.

Lemma get_Val_instance h a v b :
  h !! a = Some (OOption v b) → get_Val (VRef a) h = (Normal v, h).
Proof. intros Ha. unfold get_Val, deref, mbind, M_bind, mret, M_ret. by rewrite Ha. Qed.

Lemma instanceof_instance h a v b :
  h !! a = Some (OOption v b) →
  instanceof_OptionType (VRef a) h = (Normal true, h).
Proof.
  intros Ha. unfold instanceof_OptionType, deref, mbind, M_bind, mret, M_ret.
  by rewrite Ha.
Qed.

Lemma instanceof_other h x :
  ¬ is_instance h x → instanceof_OptionType x h = (Normal false, h).
Proof.
  intros Hx. unfold instanceof_OptionType, deref, mbind, M_bind, mret, M_ret.
  destruct x as [| | | | |a]; try done.
  destruct (h !! a) as [[v b| | | | |]|] eqn:Ha; try done.
  destruct Hx. by exists a, v, b.
Qed.

Lemma strict_eq_refl v : v ≠ VNumber NaN → strict_eq v v = true.
Proof.
  destruct v as [| | |[|z]| |]; simpl; intros Hv; try done;
    by apply bool_decide_eq_true.
Qed.

(** [===] is equality of values, but for [NaN]. *)
Lemma strict_eq_true x y : strict_eq x y = true ↔ x = y ∧ x ≠ VNumber NaN.
Proof.
  split.
  - destruct x as [| | |[|?]| |], y as [| | |[|?]| |]; simpl; try done;
      intros ->%bool_decide_eq_true; done.
  - intros [<- Hx]. by apply strict_eq_refl.
Qed.

Lemma keeps_instances_refl h : keeps_instances h h.
Proof. by intros ???. Qed.

Lemma keeps_instances_alloc h o : keeps_instances h (<[fresh_addr h := o]> h).
Proof.
  intros a v b Ha. rewrite lookup_insert_ne; [done|].
  by eapply fresh_addr_ne.
Qed.

Lemma on_Is {A} (k : value → M A) h a v b :
  h !! a = Some (OOption v b) → (get_Is (VRef a) ≫= k) h = k (VBool b) h.
Proof. intros Ha. by apply bind_Normal, get_Is_instance with v. Qed.

Lemma on_Val {A} (k : value → M A) h a v b :
  h !! a = Some (OOption v b) → (get_Val (VRef a) ≫= k) h = k v h.
Proof. intros Ha. by apply bind_Normal, get_Val_instance with b. Qed.

(** Reading the discriminant of a receiver that is an instance, then
    branching on it. *)
Ltac on_receiver Ha :=
  rewrite (on_Is _ _ _ _ _ Ha); cbn [truthy negb];
  try rewrite (on_Val _ _ _ _ _ Ha);
  try rewrite (get_Val_instance _ _ _ _ Ha).

Create HintDb methods.
Hint Unfold OptionType.into OptionType.isSome OptionType.isNone
  OptionType.expect OptionType.unwrap OptionType.unwrapOr
  OptionType.unwrapOrElse OptionType.unwrapUnchecked OptionType.or
  OptionType.orElse OptionType.and OptionType.andThen OptionType.map
  OptionType.mapOr OptionType.mapOrElse OptionType.okOr OptionType.okOrElse
  : methods.

(** ** The methods at a receiver that is an instance *)

Section Receiver.
Context (h : heap) (a : addr) (v : value) (b : bool).
Hypothesis Hthis : h !! a = Some (OOption v b).

Lemma expect_run msg :
  OptionType.expect (VRef a) msg h =
    if b then (Normal v, h)
    else (Throw (VRef (fresh_addr h)),
          <[fresh_addr h := OError "Error" msg]> h).
Proof. autounfold with methods. by destruct b; on_receiver Hthis. Qed.

Lemma isSome_run : OptionType.isSome (VRef a) h = (Normal (VBool b), h).
Proof. by apply get_Is_instance with v. Qed.

Lemma unwrapUnchecked_run :
  OptionType.unwrapUnchecked (VRef a) h = (Normal v, h).
Proof. by apply get_Val_instance with b. Qed.

Lemma unwrapOrElse_run f :
  OptionType.unwrapOrElse (VRef a) f h = if b then (Normal v, h) else f h.
Proof. autounfold with methods. by destruct b; on_receiver Hthis. Qed.

Lemma orElse_run f :
  OptionType.orElse (VRef a) f h = if b then (Normal (VRef a), h) else f h.
Proof. autounfold with methods. by destruct b; on_receiver Hthis. Qed.

Lemma andThen_run f :
  OptionType.andThen (VRef a) f h = if b then f v h else (Normal None_, h).
Proof. autounfold with methods. by destruct b; on_receiver Hthis. Qed.

Lemma map_run f :
  OptionType.map (VRef a) f h =
    if b then (u ← f v; new_OptionType u true) h else (Normal None_, h).
Proof. autounfold with methods. by destruct b; on_receiver Hthis. Qed.

Lemma mapOr_run def f :
  OptionType.mapOr (VRef a) def f h = if b then f v h else (Normal def, h).
Proof. autounfold with methods. by destruct b; on_receiver Hthis. Qed.

Lemma mapOrElse_run def f :
  OptionType.mapOrElse (VRef a) def f h = if b then f v h else def h.
Proof. autounfold with methods. by destruct b; on_receiver Hthis. Qed.

Lemma okOrElse_run f :
  OptionType.okOrElse (VRef a) f h =
    if b then Ok v h else (e ← f; Err e) h.
Proof. autounfold with methods. by destruct b; on_receiver Hthis. Qed.

End Receiver.

(** ** [expect] and [unwrap] *)

Lemma expect_raises h a v msg :
  h !! a = Some (OOption v false) →
  raises (OptionType.expect (VRef a) msg) h "Error" msg.
Proof.
  intros Ha. exists (fresh_addr h), (<[fresh_addr h := OError "Error" msg]> h).
  rewrite (expect_run _ _ _ _ Ha). split_and!; [done| |].
  - apply fresh_addr_None.
  - apply lookup_insert_eq.
Qed.

Lemma expect_throws_only_Error h a v b msg e h' :
  h !! a = Some (OOption v b) →
  OptionType.expect (VRef a) msg h = (Throw e, h') →
  is_error h' e "Error" msg.
Proof.
  intros Ha. rewrite (expect_run _ _ _ _ Ha). destruct b; [done|].
  intros [= <- <-]. exists (fresh_addr h). split; [done|].
  apply lookup_insert_eq.
Qed.

(** C1, as the spec words it, fails: the error that [expect] throws on
    [None] is not an instance of a class [UnwrapError].  The module
    defines no such class; [expect] runs [throw new Error(msg)]. *)
Lemma expect_None_is_not_UnwrapError :
  ¬ raises (OptionType.expect None_ "empty") init_heap "UnwrapError" "empty".
Proof.
  intros (a & h' & Hrun & _ & Hcls).
  assert (Hnone : init_heap !! none_addr = Some (OOption VUndefined false))
    by reflexivity.
  unfold None_ in Hrun. rewrite (expect_run _ _ _ _ Hnone) in Hrun.
  injection Hrun as <- <-. rewrite lookup_insert_eq in Hcls. discriminate.
Qed.

(** C1 (amended): for every Option, [expect(msg)] returns the payload
    when the Option is Some, and when it is None it throws a new instance
    of the built-in [Error] carrying [msg]; [unwrap()] does the same with
    the fixed message.  Whatever either one throws is such an [Error]. *)
Theorem expect_unwrap_throw_Error h a v b msg :
  h !! a = Some (OOption v b) →
  (b = true →
     OptionType.expect (VRef a) msg h = (Normal v, h) ∧
     OptionType.unwrap (VRef a) h = (Normal v, h)) ∧
  (b = false →
     raises (OptionType.expect (VRef a) msg) h "Error" msg ∧
     raises (OptionType.unwrap (VRef a)) h
       "Error" "Failed to unwrap Option (found None)") ∧
  (∀ e h', OptionType.expect (VRef a) msg h = (Throw e, h') →
     is_error h' e "Error" msg) ∧
  (∀ e h', OptionType.unwrap (VRef a) h = (Throw e, h') →
     is_error h' e "Error" "Failed to unwrap Option (found None)").
Proof.
  intros Ha. split_and!.
  - intros ->. unfold OptionType.unwrap. by rewrite !(expect_run _ _ _ _ Ha).
  - intros ->. split; by apply expect_raises with v.
  - intros e h'. by apply expect_throws_only_Error with v b.
  - intros e h'. by apply expect_throws_only_Error with v b.
Qed.

(** The hypothesis of C1 holds of [None] right after the module is
    loaded, where [expect] throws. *)
Lemma expect_unwrap_throw_Error_witness :
  raises (OptionType.expect None_ "empty") init_heap "Error" "empty".
Proof.
  refine (proj1 (proj1 (proj2
    (expect_unwrap_throw_Error init_heap none_addr VUndefined false "empty" _))
    _)); reflexivity.
Defined.

(** ** [from] *)

Lemma absent_test v :
  strict_eq v VUndefined || strict_eq v VNull || negb (strict_eq v v) = true
  ↔ absent v.
Proof.
  unfold absent. destruct v as [| | |[|z]| |]; simpl;
    try (rewrite bool_decide_eq_true_2 by done);
    (split; [try discriminate | intros [?|[?|?]]; try discriminate]);
    auto.
Qed.

Lemma from_absent h v : absent v → Option.from v h = (Normal None_, h).
Proof.
  intros Hv%absent_test. unfold Option.from. by rewrite Hv.
Qed.

Lemma from_present h v : ¬ absent v → Option.from v h = Some_ v h.
Proof.
  intros Hv. unfold Option.from.
  destruct (strict_eq v VUndefined || strict_eq v VNull
            || negb (strict_eq v v)) eqn:Htest; [|done].
  by apply absent_test in Htest.
Qed.

(** C3: [Option.from(v)], and [Option(v)] with it, returns [None] exactly
    when [v] is [null], [undefined] or [NaN]; for every other value,
    the falsy [0], the empty string and [false] among them, it returns a new [Some]
    holding [v]. *)
Theorem from_None_iff_absent h v :
  loaded h →
  Option v h = Option.from v h ∧
  (absent v → Option.from v h = (Normal None_, h)) ∧
  (¬ absent v →
     ∃ a, a ≠ none_addr ∧ h !! a = None ∧
       Option.from v h = (Normal (VRef a), <[a := OOption v true]> h)) ∧
  (fst (Option.from v h) = Normal None_ ↔ absent v) ∧
  ¬ absent (VNumber (Num 0)) ∧ ¬ absent (VString EmptyString) ∧
  ¬ absent (VBool false).
Proof.
  intros Hh.
  assert (Hfresh : fresh_addr h ≠ none_addr) by by eapply fresh_addr_ne.
  split_and!; try (intros [?|[?|?]]; discriminate).
  - done.
  - apply from_absent.
  - intros Hv. exists (fresh_addr h). split_and!; [done| |].
    + apply fresh_addr_None.
    + by rewrite from_present.
  - split.
    + destruct (decide (absent v)) as [|Hv]; [done|].
      rewrite from_present by done. simpl. intros [= ?]. done.
    + intros Hv. by rewrite from_absent.
Qed.

(** C3 at [0], in the heap the module starts with. *)
Lemma from_None_iff_absent_witness :
  ∃ a, a ≠ none_addr ∧ init_heap !! a = None ∧
    Option.from (VNumber (Num 0)) init_heap =
      (Normal (VRef a), <[a := OOption (VNumber (Num 0)) true]> init_heap).
Proof.
  refine (proj1 (proj2 (proj2
    (from_None_iff_absent init_heap (VNumber (Num 0)) _))) _).
  - reflexivity.
  - unfold absent. intros [H|[H|H]]; discriminate H.
Defined.

(** ** Laziness of the [*Else] combinators *)

(** C9: on [None], [andThen(f)] returns [None] and leaves the heap as it
    was, whatever [f] is; on [Some(v)], [orElse(f)] returns the receiver
    and [unwrapOrElse(f)] returns [v], again whatever [f] is.  A function
    that had been called would show in the result wherever it throws or
    allocates; none does. *)
Theorem Else_short_circuit h a v b :
  h !! a = Some (OOption v b) →
  (b = false →
     ∀ f, OptionType.andThen (VRef a) f h = (Normal None_, h)) ∧
  (b = true →
     ∀ f, OptionType.orElse (VRef a) f h = (Normal (VRef a), h) ∧
          OptionType.unwrapOrElse (VRef a) f h = (Normal v, h)).
Proof.
  intros Ha. split; intros -> f.
  - by rewrite (andThen_run _ _ _ _ Ha).
  - by rewrite (orElse_run _ _ _ _ Ha), (unwrapOrElse_run _ _ _ _ Ha).
Qed.

(** C9 at [None] with a function that throws whenever it is called. *)
Lemma Else_short_circuit_witness :
  OptionType.andThen None_ (λ _, throw VNull) init_heap
  = (Normal None_, init_heap).
Proof.
  refine (proj1
    (Else_short_circuit init_heap none_addr VUndefined false _) _ _);
    reflexivity.
Defined.

(** ** [all] and [any] of no argument *)

(** C10: [Option.all()] is a [Some] holding a new empty array, so
    [Option.all().isSome()] is true, while [Option.any()] is [None]. *)
Theorem all_any_of_nothing h :
  (∃ arr r h',
     Option.all [] h = (Normal (VRef r), h') ∧
     h' !! r = Some (OOption (VRef arr) true) ∧
     h' !! arr = Some (OArray []) ∧
     h !! r = None ∧ h !! arr = None) ∧
  (∃ h', (r ← Option.all []; OptionType.isSome r) h
         = (Normal (VBool true), h')) ∧
  Option.any [] h = (Normal None_, h).
Proof.
  set (arr := fresh_addr h).
  set (h1 := <[arr := OArray []]> h).
  set (r := fresh_addr h1).
  set (h2 := <[r := OOption (VRef arr) true]> h1).
  assert (Hall : Option.all [] h = (Normal (VRef r), h2)) by done.
  assert (Harr : h1 !! arr = Some (OArray [])) by apply lookup_insert_eq.
  assert (Hr : h2 !! r = Some (OOption (VRef arr) true))
    by apply lookup_insert_eq.
  assert (Hne : r ≠ arr) by by eapply fresh_addr_ne.
  split_and!.
  - exists arr, r, h2. split_and!; [done|done| | |].
    + unfold h2. by rewrite lookup_insert_ne.
    + assert (Hr1 : h1 !! r = None) by apply fresh_addr_None.
      unfold h1 in Hr1. by rewrite lookup_insert_ne in Hr1.
    + apply fresh_addr_None.
  - exists h2. rewrite (bind_Normal _ _ _ _ _ Hall).
    by apply isSome_run with (VRef arr).
  - done.
Qed.

(** ** [safe] *)

Lemma safe_returns fn args h : returns (Option.safe fn args) h.
Proof.
  unfold Option.safe, try_catch, returns, mbind, M_bind.
  destruct (fn args h) as [[r|e] h1]; by eexists _, _.
Qed.

(** C8: [safe(fn, ...args)] calls [fn] with [args]; when [fn] returns
    [r], [safe] returns a new [Some] holding [r], and when [fn] throws,
    [safe] returns [None].  [safe] itself never throws. *)
Theorem safe_captures fn args h :
  (∀ r h1, fn args h = (Normal r, h1) →
     Option.safe fn args h =
       (Normal (VRef (fresh_addr h1)), <[fresh_addr h1 := OOption r true]> h1)) ∧
  (∀ e h1, fn args h = (Throw e, h1) →
     Option.safe fn args h = (Normal None_, h1)) ∧
  returns (Option.safe fn args) h.
Proof.
  split_and!; [| |apply safe_returns];
    unfold Option.safe, try_catch, mbind, M_bind; by intros ?? ->.
Qed.

(** C8 on the documented example: [safe(mightThrow, true)] is [None]. *)
Lemma safe_captures_witness :
  ∃ h1, Option.safe mightThrow [VBool true] init_heap = (Normal None_, h1).
Proof.
  eexists.
  refine (proj1 (proj2 (safe_captures mightThrow [VBool true] init_heap))
            _ _ _).
  reflexivity.
Defined.

(** ** [any] and [all] *)

Lemma invoke_instance {A} (m : value → M A) h a v b :
  h !! a = Some (OOption v b) → invoke m (VRef a) h = m (VRef a) h.
Proof.
  intros Ha. unfold invoke.
  by rewrite (bind_Normal _ _ _ _ _ (instanceof_instance _ _ _ _ Ha)).
Qed.

Lemma push_run h arr acc v :
  h !! arr = Some (OArray acc) →
  push (VRef arr) v h = (Normal (), <[arr := OArray (acc ++ [v])]> h).
Proof. intros Harr. unfold push. by rewrite Harr. Qed.

Lemma any_skips_None h x rest :
  is_None_in h x → Option.any (x :: rest) h = Option.any rest h.
Proof.
  intros (a & v & -> & Ha). cbn [Option.any].
  rewrite (bind_Normal _ _ _ (VBool false) h); [done|].
  rewrite (invoke_instance _ _ _ _ _ Ha). by apply isSome_run with v.
Qed.

Lemma any_takes_Some h x v rest :
  is_Some_of h x v → Option.any (x :: rest) h = (Normal x, h).
Proof.
  intros (a & -> & Ha). cbn [Option.any].
  rewrite (bind_Normal _ _ _ (VBool true) h); [done|].
  rewrite (invoke_instance _ _ _ _ _ Ha). by apply isSome_run with v.
Qed.

(** C7: [Option.any] goes through its arguments in order and returns the
    first that is a [Some]: the very reference it was given, with no
    object allocated.  When every argument is a [None] it returns
    [None]. *)
Theorem any_first_Some h :
  (∀ pre x v post,
     Forall (is_None_in h) pre → is_Some_of h x v →
     Option.any (pre ++ x :: post) h = (Normal x, h)) ∧
  (∀ xs, Forall (is_None_in h) xs → Option.any xs h = (Normal None_, h)).
Proof.
  split.
  - intros pre x v post Hpre Hx.
    induction Hpre as [|y pre Hy _ IH]; simpl app.
    + by apply any_takes_Some with v.
    + by rewrite any_skips_None.
  - intros xs Hxs. induction Hxs as [|y xs Hy _ IH]; [done|].
    by rewrite any_skips_None.
Qed.

Lemma scenario_None : is_None_in scenario_heap None_.
Proof. exists none_addr, VUndefined. split; reflexivity. Defined.

Lemma scenario_Some_20 : is_Some_of scenario_heap (VRef 1) (VNumber (Num 20)).
Proof. exists 1. split; reflexivity. Defined.

(** C7 on the documented example: [any(None, Some(20), None)] is that
    [Some(20)]. *)
Lemma any_first_Some_witness :
  Option.any [None_; VRef 1; None_] scenario_heap
  = (Normal (VRef 1), scenario_heap).
Proof.
  refine (proj1 (any_first_Some scenario_heap)
            [None_] (VRef 1) (VNumber (Num 20)) [None_] _ _).
  - constructor; [exact scenario_None | constructor].
  - exact scenario_Some_20.
Defined.

Lemma is_Some_of_insert_array h arr acc acc' x v :
  h !! arr = Some (OArray acc) →
  is_Some_of h x v → is_Some_of (<[arr := OArray acc']> h) x v.
Proof.
  intros Harr (a & -> & Ha). exists a. split; [done|].
  rewrite lookup_insert_ne; [done|]. intros ->. congruence.
Qed.

Lemma is_Some_of_alloc h o x v :
  is_Some_of h x v → is_Some_of (<[fresh_addr h := o]> h) x v.
Proof.
  intros (a & -> & Ha). exists a. split; [done|].
  by apply keeps_instances_alloc.
Qed.

(** One turn of the loop of [all] on a [Some]: its payload is pushed. *)
Lemma all_loop_Some h arr acc x v rest :
  h !! arr = Some (OArray acc) → is_Some_of h x v →
  Option.all_loop (VRef arr) (x :: rest) h =
  Option.all_loop (VRef arr) rest (<[arr := OArray (acc ++ [v])]> h).
Proof.
  intros Harr (a & -> & Ha). cbn [Option.all_loop].
  rewrite (bind_Normal _ _ _ (VBool true) h);
    [|rewrite (invoke_instance _ _ _ _ _ Ha); by apply isSome_run with v].
  cbn [truthy].
  rewrite (bind_Normal _ _ _ v h);
    [|rewrite (invoke_instance _ _ _ _ _ Ha);
      by apply unwrapUnchecked_run with true].
  by rewrite (bind_Normal _ _ _ _ _ (push_run _ _ _ v Harr)).
Qed.

Lemma all_loop_None h arr x rest :
  is_None_in h x →
  Option.all_loop (VRef arr) (x :: rest) h = (Normal None_, h).
Proof.
  intros (a & v & -> & Ha). cbn [Option.all_loop].
  rewrite (bind_Normal _ _ _ (VBool false) h); [done|].
  rewrite (invoke_instance _ _ _ _ _ Ha). by apply isSome_run with v.
Qed.

(** The loop over a run of [Some]s: their payloads end up behind what
    the array held, in the order of the arguments. *)
Lemma all_loop_Somes pre :
  ∀ vs h arr acc rest,
    h !! arr = Some (OArray acc) →
    Forall2 (is_Some_of h) pre vs →
    Option.all_loop (VRef arr) (pre ++ rest) h =
    Option.all_loop (VRef arr) rest (<[arr := OArray (acc ++ vs)]> h).
Proof.
  induction pre as [|x pre IH]; intros vs h arr acc rest Harr Hpre.
  - apply Forall2_nil_inv_l in Hpre as ->.
    rewrite app_nil_r, insert_id; done.
  - apply Forall2_cons_inv_l in Hpre as (v & vs' & Hx & Hpre & ->).
    simpl app. rewrite (all_loop_Some _ _ _ _ _ _ Harr Hx).
    rewrite (IH vs' _ arr (acc ++ [v]) rest).
    + by rewrite insert_insert_eq, <- app_assoc.
    + apply lookup_insert_eq.
    + eapply Forall2_impl; [done|].
      intros. by eapply is_Some_of_insert_array.
Qed.

(** C6: [Option.all] goes through its arguments in order.  At the first
    [None] it returns [None]: the arguments after it play no part in the
    result, which is stated without them (the array of the payloads
    gathered so far is left behind, unreferenced).  When every argument
    is a [Some], it returns a new [Some] holding a new array of the
    payloads, in the order of the arguments. *)
Theorem all_first_None_or_payloads h :
  (∀ pre vs x post,
     Forall2 (is_Some_of h) pre vs → is_None_in h x →
     Option.all (pre ++ x :: post) h =
       (Normal None_, <[fresh_addr h := OArray vs]> h)) ∧
  (∀ xs vs,
     Forall2 (is_Some_of h) xs vs →
     ∃ arr r h',
       Option.all xs h = (Normal (VRef r), h') ∧
       h' !! r = Some (OOption (VRef arr) true) ∧
       h' !! arr = Some (OArray vs) ∧
       h !! r = None ∧ h !! arr = None ∧
       ∀ a o, h !! a = Some o → h' !! a = Some o).
Proof.
  set (arr := fresh_addr h).
  set (h0 := <[arr := OArray []]> h).
  assert (Harr : h0 !! arr = Some (OArray [])) by apply lookup_insert_eq.
  assert (Hstart : ∀ xs, Option.all xs h = Option.all_loop (VRef arr) xs h0)
    by done.
  assert (Hkeep : ∀ xs vs,
    Forall2 (is_Some_of h) xs vs → Forall2 (is_Some_of h0) xs vs).
  { intros xs vs Hxs. eapply Forall2_impl; [done|].
    intros. by apply is_Some_of_alloc. }
  assert (Hfill : ∀ vs, <[arr := OArray ([] ++ vs)]> h0 = <[arr := OArray vs]> h).
  { intros vs. unfold h0. by rewrite insert_insert_eq. }
  split.
  - intros pre vs x post Hpre (a & v & -> & Ha).
    rewrite Hstart, (all_loop_Somes pre vs h0 arr [] _ Harr (Hkeep _ _ Hpre)).
    rewrite Hfill. apply all_loop_None. exists a, v. split; [done|].
    by apply keeps_instances_alloc.
  - intros xs vs Hxs.
    set (h1 := <[arr := OArray vs]> h).
    set (r := fresh_addr h1).
    assert (Harr1 : h1 !! arr = Some (OArray vs)) by apply lookup_insert_eq.
    assert (Hne : r ≠ arr) by by eapply fresh_addr_ne.
    assert (Hr0 : h !! r = None).
    { assert (Hr1 : h1 !! r = None) by apply fresh_addr_None.
      unfold h1 in Hr1. by rewrite lookup_insert_ne in Hr1. }
    exists arr, r, (<[r := OOption (VRef arr) true]> h1). split_and!.
    + rewrite Hstart, <- (app_nil_r xs).
      rewrite (all_loop_Somes xs vs h0 arr [] _ Harr (Hkeep _ _ Hxs)).
      by rewrite Hfill.
    + apply lookup_insert_eq.
    + by rewrite lookup_insert_ne.
    + done.
    + apply fresh_addr_None.
    + intros a o Ha.
      rewrite lookup_insert_ne by congruence.
      unfold h1. rewrite lookup_insert_ne; [done|]. by eapply fresh_addr_ne.
Qed.

(** C6 on the documented examples: [all(Some(20), None, Some(30))] is
    [None]. *)
Lemma all_first_None_or_payloads_witness :
  Option.all [VRef 1; None_; VRef 2] scenario_heap =
    (Normal None_,
     <[fresh_addr scenario_heap := OArray [VNumber (Num 20)]]> scenario_heap).
Proof.
  refine (proj1 (all_first_None_or_payloads scenario_heap)
            [VRef 1] [VNumber (Num 20)] None_ [VRef 2] _ _).
  - constructor; [exact scenario_Some_20 | constructor].
  - exact scenario_None.
Defined.

(** ** [eq] and the laws of [map] *)

Lemma eq_run h a1 v1 b1 a2 v2 b2 :
  h !! a1 = Some (OOption v1 b1) → h !! a2 = Some (OOption v2 b2) →
  OptionType.eq (VRef a1) (VRef a2) h =
    (Normal (VBool (bool_decide (b1 = b2) && strict_eq v1 v2)), h).
Proof.
  intros H1 H2. unfold OptionType.eq.
  rewrite (on_Is _ _ _ _ _ H1), (on_Is _ _ _ _ _ H2). cbn [strict_eq].
  destruct (bool_decide (b1 = b2)); [|done].
  by rewrite (on_Val _ _ _ _ _ H1), (on_Val _ _ _ _ _ H2).
Qed.

Lemma map_Some h a v f u h1 :
  h !! a = Some (OOption v true) → f v h = (Normal u, h1) →
  OptionType.map (VRef a) f h =
    (Normal (VRef (fresh_addr h1)), <[fresh_addr h1 := OOption u true]> h1).
Proof.
  intros Ha Hf. rewrite (map_run _ _ _ _ Ha).
  by rewrite (bind_Normal _ _ _ _ _ Hf).
Qed.

Lemma map_None h a v f :
  h !! a = Some (OOption v false) →
  OptionType.map (VRef a) f h = (Normal None_, h).
Proof. intros Ha. by rewrite (map_run _ _ _ _ Ha). Qed.

(** C4, as the spec words it, fails on a payload that is [NaN]:
    [Some(NaN).map(v => v).eq(Some(NaN))] is false, because [eq] compares
    the payloads with [===]. *)
Lemma map_identity_fails_on_NaN :
  fst ((x ← Some_ (VNumber NaN); map_identity x) init_heap)
  = Normal (VBool false).
Proof. reflexivity. Qed.

(** C4 (amended): for every Option [x] whose payload is not [NaN],
    [x.map(v => v)] has the discriminant of [x] and the payload of [x],
    and [x.map(v => v).eq(x)] is true. *)
Theorem map_identity_eq h x v b :
  option_in h x v b → v ≠ VNumber NaN →
  (∃ y h',
     OptionType.map x (λ v, mret v) h = (Normal y, h') ∧
     option_in h' y v b ∧
     OptionType.eq y x h' = (Normal (VBool true), h')) ∧
  (∃ h', map_identity x h = (Normal (VBool true), h')).
Proof.
  intros Hx Hv.
  assert (Hvv : strict_eq v v = true) by by apply strict_eq_refl.
  destruct Hx as [a v Ha|Hnone].
  - set (h' := <[fresh_addr h := OOption v true]> h).
    assert (Hmap : OptionType.map (VRef a) (λ v, mret v) h
                   = (Normal (VRef (fresh_addr h)), h'))
      by by apply map_Some with v.
    assert (Hy : h' !! fresh_addr h = Some (OOption v true))
      by apply lookup_insert_eq.
    assert (Ha' : h' !! a = Some (OOption v true))
      by by apply keeps_instances_alloc.
    assert (Heq : OptionType.eq (VRef (fresh_addr h)) (VRef a) h'
                  = (Normal (VBool true), h')).
    { rewrite (eq_run _ _ _ _ _ _ _ Hy Ha'), Hvv. done. }
    split.
    + exists (VRef (fresh_addr h)), h'. split_and!; [done| |done].
      by constructor.
    + exists h'. unfold map_identity. by rewrite (bind_Normal _ _ _ _ _ Hmap).
  - assert (Hmap : OptionType.map None_ (λ v, mret v) h = (Normal None_, h))
      by by apply map_None with VUndefined.
    assert (Heq : OptionType.eq None_ None_ h = (Normal (VBool true), h))
      by exact (eq_run _ _ _ _ _ _ _ Hnone Hnone).
    split.
    + exists None_, h. split_and!; [done| |done]. by constructor.
    + exists h. unfold map_identity. by rewrite (bind_Normal _ _ _ _ _ Hmap).
Qed.

(** C4 on [Some(20)]. *)
Lemma map_identity_eq_witness :
  ∃ h', map_identity (VRef 1) scenario_heap = (Normal (VBool true), h').
Proof.
  refine (proj2 (map_identity_eq scenario_heap (VRef 1) (VNumber (Num 20))
                   true _ _)).
  - constructor. reflexivity.
  - discriminate.
Defined.

(** C5, as the spec words it, fails when [g] makes a new object at each
    call.  With [x = Some(1)], [f = v => v] and [g = Some], the two sides
    hold two different instances, and [eq] compares them by identity. *)
Lemma map_composition_fails_on_new_objects :
  fst ((x ← Some_ (VNumber (Num 1));
        map_composition x (λ v, mret v) Some_) init_heap)
  = Normal (VBool false).
Proof. reflexivity. Qed.

Lemma yields_run m r h :
  yields m r → ∃ h', m h = (Normal r, h') ∧ keeps_instances h h'.
Proof. intros Hm. apply Hm. Qed.

(** C5 (amended): for every Option [x], when [f] at the payload of [x]
    and [g] at the result of [f] return the identical value at every
    call ([f] always [u], [g] always [w], and [w] is not [NaN]),
    [x.map(f).map(g)] equals, under [eq], [x.map(v => g(f(v)))]. *)
Theorem map_composition_eq h x v b f g u w :
  option_in h x v b →
  (b = true → yields (f v) u ∧ yields (g u) w ∧ w ≠ VNumber NaN) →
  ∃ h', map_composition x f g h = (Normal (VBool true), h').
Proof.
  intros Hx Hfg. unfold map_composition, map_map, map_composed.
  destruct Hx as [a v Ha|Hnone].
  - destruct Hfg as (Hf & Hg & Hw); [done|].
    apply strict_eq_refl in Hw.
    (* x.map(f) *)
    destruct (yields_run _ _ h Hf) as (h1 & Hf1 & K1).
    set (y := fresh_addr h1). set (h2 := <[y := OOption u true]> h1).
    assert (Hy : h2 !! y = Some (OOption u true)) by apply lookup_insert_eq.
    (* .map(g) *)
    destruct (yields_run _ _ h2 Hg) as (h3 & Hg3 & K3).
    set (l := fresh_addr h3). set (h4 := <[l := OOption w true]> h3).
    assert (Hl : h4 !! l = Some (OOption w true)) by apply lookup_insert_eq.
    assert (Ha4 : h4 !! a = Some (OOption v true)).
    { by apply keeps_instances_alloc, K3, keeps_instances_alloc, K1. }
    (* x.map(v => g(f(v))) *)
    destruct (yields_run _ _ h4 Hf) as (h5 & Hf5 & K5).
    destruct (yields_run _ _ h5 Hg) as (h6 & Hg6 & K6).
    set (r := fresh_addr h6). set (h7 := <[r := OOption w true]> h6).
    assert (Hr : h7 !! r = Some (OOption w true)) by apply lookup_insert_eq.
    assert (Hl7 : h7 !! l = Some (OOption w true)).
    { by apply keeps_instances_alloc, K6, K5. }
    exists h7.
    rewrite (bind_Normal _ _ _ (VRef l) h4).
    + rewrite (bind_Normal _ _ _ (VRef r) h7).
      * rewrite (eq_run _ _ _ _ _ _ _ Hl7 Hr), Hw. done.
      * apply map_Some with v; [done|].
        by rewrite (bind_Normal _ _ _ _ _ Hf5).
    + rewrite (bind_Normal _ _ _ _ _ (map_Some _ _ _ _ _ _ Ha Hf1)).
      by apply map_Some with u.
  - exists h.
    assert (Hmap : ∀ k, OptionType.map None_ k h = (Normal None_, h))
      by (intros k; by apply map_None with VUndefined).
    rewrite (bind_Normal _ _ _ None_ h).
    + rewrite (bind_Normal _ _ _ _ _ (Hmap _)).
      exact (eq_run _ _ _ _ _ _ _ Hnone Hnone).
    + by rewrite (bind_Normal _ _ _ _ _ (Hmap _)).
Qed.

(** C5 on [Some(20)], with [f] and [g] returning constants. *)
Lemma map_composition_eq_witness :
  ∃ h',
    map_composition (VRef 1) (λ _, mret (VBool true)) (λ _, mret VNull)
      scenario_heap
    = (Normal (VBool true), h').
Proof.
  refine (map_composition_eq scenario_heap (VRef 1) (VNumber (Num 20)) true
            (λ _, mret (VBool true)) (λ _, mret VNull) (VBool true) VNull
            _ _).
  - constructor. reflexivity.
  - intros _. split_and!.
    + intros h. exists h. split; [reflexivity | apply keeps_instances_refl].
    + intros h. exists h. split; [reflexivity | apply keeps_instances_refl].
    + discriminate.
Defined.

(** ** Which operations can throw *)

Lemma returns_ret {A} (a : A) h : returns (mret a) h.
Proof. by exists a, h. Qed.

Lemma returns_alloc o h : returns (alloc o) h.
Proof. by eexists _, _. Qed.

Lemma returns_bind {A B} (m : M A) (k : A → M B) h a h' :
  m h = (Normal a, h') → returns (k a) h' → returns (m ≫= k) h.
Proof. intros Hm (r & h'' & Hk). exists r, h''. by rewrite (bind_Normal _ _ _ _ _ Hm). Qed.

(** Reading [[Is]] or [[Val]] off anything but [null] and [undefined]
    gives a value, and gives [undefined] off what is not an instance. *)
Lemma get_Is_defined h x :
  x ≠ VNull → x ≠ VUndefined →
  ∃ r, get_Is x h = (Normal r, h) ∧ (¬ is_instance h x → r = VUndefined).
Proof.
  intros Hnull Hundef. unfold get_Is, deref, mbind, M_bind, mret, M_ret.
  destruct x as [| | | | |a]; try done; try by eexists.
  destruct (h !! a) as [[v b| | | | |]|] eqn:Ha; try by eexists.
  eexists. split; [done|]. intros []. by exists a, v, b.
Qed.

Lemma get_Val_defined h x :
  x ≠ VNull → x ≠ VUndefined → ∃ r, get_Val x h = (Normal r, h).
Proof.
  intros Hnull Hundef. unfold get_Val, deref, mbind, M_bind, mret, M_ret.
  destruct x as [| | | | |a]; try done; by eexists.
Qed.

Lemma is_instance_or_not h x : is_instance h x ∨ ¬ is_instance h x.
Proof.
  destruct x as [| | | | |a];
    try (right; intros (? & ? & ? & ? & ?); discriminate).
  destruct (h !! a) as [[v b| | | | |]|] eqn:Ha;
    try (right; intros (? & ? & ? & [= <-] & ?); congruence).
  left. by exists a, v, b.
Qed.

Lemma is_run h a v b cmp :
  h !! a = Some (OOption v b) →
  returns (OptionType.is_ (VRef a) cmp) h ∧
  (¬ is_instance h cmp →
   OptionType.is_ (VRef a) cmp h = (Normal (VBool false), h)).
Proof.
  intros Ha. unfold OptionType.is_.
  destruct (is_instance_or_not h cmp) as [(c & w & d & -> & Hc)|Hcmp].
  - split; [|intros []; by exists c, w, d].
    eapply returns_bind; [by eapply instanceof_instance|].
    eapply returns_bind; [by eapply get_Is_instance|].
    eapply returns_bind; [by eapply get_Is_instance|].
    apply returns_ret.
  - split.
    + eapply returns_bind; [by apply instanceof_other|]. apply returns_ret.
    + by rewrite (bind_Normal _ _ _ _ _ (instanceof_other _ _ Hcmp)).
Qed.

Lemma eq_neq_run h a v b cmp :
  h !! a = Some (OOption v b) → cmp ≠ VNull → cmp ≠ VUndefined →
  ∃ r w,
    OptionType.eq (VRef a) cmp h =
      (Normal (VBool (strict_eq (VBool b) r && strict_eq v w)), h) ∧
    OptionType.neq (VRef a) cmp h =
      (Normal (VBool (negb (strict_eq (VBool b) r) || negb (strict_eq v w))), h) ∧
    (¬ is_instance h cmp → r = VUndefined).
Proof.
  intros Ha Hnull Hundef.
  destruct (get_Is_defined h cmp Hnull Hundef) as (r & Hr & Hother).
  destruct (get_Val_defined h cmp Hnull Hundef) as (w & Hw).
  exists r, w. unfold OptionType.eq, OptionType.neq.
  rewrite !(on_Is _ _ _ _ _ Ha), !(bind_Normal _ _ _ _ _ Hr).
  destruct (strict_eq (VBool b) r); cbn [negb andb orb]; [|done].
  by rewrite !(on_Val _ _ _ _ _ Ha), !(bind_Normal _ _ _ _ _ Hw).
Qed.

Lemma is_instance_insert_array h arr acc acc' x :
  h !! arr = Some (OArray acc) →
  is_instance h x → is_instance (<[arr := OArray acc']> h) x.
Proof.
  intros Harr (a & v & b & -> & Ha). exists a, v, b. split; [done|].
  rewrite lookup_insert_ne; [done|]. intros ->. congruence.
Qed.

Lemma all_loop_returns xs :
  ∀ h arr acc,
    h !! arr = Some (OArray acc) → Forall (is_instance h) xs →
    returns (Option.all_loop (VRef arr) xs) h.
Proof.
  induction xs as [|x xs IH]; intros h arr acc Harr Hxs.
  - apply returns_alloc.
  - apply Forall_cons_1 in Hxs as [(a & v & [] & -> & Ha) Hxs];
      unfold returns.
    + rewrite (all_loop_Some h arr acc (VRef a) v); [|done|by exists a].
      apply (IH _ arr (acc ++ [v])); [apply lookup_insert_eq|].
      eapply Forall_impl; [done|].
      intros. by eapply is_instance_insert_array.
    + rewrite all_loop_None; [by eexists _, _|by exists a, v].
Qed.

Lemma any_returns xs h : Forall (is_instance h) xs → returns (Option.any xs) h.
Proof.
  induction 1 as [|x xs (a & v & [] & -> & Ha) _ IH]; unfold returns.
  - by eexists _, _.
  - rewrite (any_takes_Some h (VRef a) v); [by eexists _, _|by exists a].
  - rewrite any_skips_None; [done|by exists a, v].
Qed.

Lemma all_returns xs h : Forall (is_instance h) xs → returns (Option.all xs) h.
Proof.
  intros Hxs. unfold Option.all.
  eapply returns_bind; [done|].
  eapply all_loop_returns; [apply lookup_insert_eq|].
  eapply Forall_impl; [done|].
  intros x (a & v & b & -> & Ha). exists a, v, b. split; [done|].
  by apply keeps_instances_alloc.
Qed.

(** A method that reads the discriminant, then at most the payload, and
    calls nothing. *)
Ltac returns_at Ha :=
  unfold returns; autounfold with methods;
  match type of Ha with
  | _ = Some (OOption _ ?b) => destruct b
  end;
  on_receiver Ha; try (by eexists _, _).

(** C2, as the spec words it, fails: [eq] given [null] throws.  It reads
    [cmp[Is]] with no test of [cmp] before, and reading a property of
    [null] is a [TypeError]. *)
Lemma eq_null_throws :
  ¬ returns (OptionType.eq (VRef 1) VNull) scenario_heap ∧
  ∃ a h',
    OptionType.eq (VRef 1) VNull scenario_heap = (Throw (VRef a), h') ∧
    h' !! a = Some (ORuntimeError "TypeError").
Proof.
  split.
  - intros (r & h' & Hrun). discriminate Hrun.
  - by eexists _, _.
Qed.

(** C2 (amended): at every receiver, [is] returns for every argument, and
    returns false for one that is not an Option; [eq] and [neq] return
    for every argument but [null] and [undefined], [eq] false and [neq]
    true for one that is not an Option; the operations that take no
    function always return; those that take a function return whenever
    the function they call returns; [Some], [from], [Option], the static
    [is] and [safe] always return, and [all] and [any] return on
    Options. *)
Theorem total_but_for_null_and_callbacks h a v b :
  h !! a = Some (OOption v b) →
  let this := VRef a in
  (∀ cmp, returns (OptionType.is_ this cmp) h) ∧
  (∀ cmp, ¬ is_instance h cmp →
     OptionType.is_ this cmp h = (Normal (VBool false), h)) ∧
  (∀ cmp, cmp ≠ VNull → cmp ≠ VUndefined →
     returns (OptionType.eq this cmp) h ∧
     returns (OptionType.neq this cmp) h) ∧
  (∀ cmp, cmp ≠ VNull → cmp ≠ VUndefined → ¬ is_instance h cmp →
     OptionType.eq this cmp h = (Normal (VBool false), h) ∧
     OptionType.neq this cmp h = (Normal (VBool true), h)) ∧
  (returns (OptionType.into this) h ∧
   returns (OptionType.isSome this) h ∧
   returns (OptionType.isNone this) h ∧
   returns (OptionType.unwrapUnchecked this) h) ∧
  (∀ arg,
     returns (OptionType.unwrapOr this arg) h ∧
     returns (OptionType.or this arg) h ∧
     returns (OptionType.and this arg) h ∧
     returns (OptionType.okOr this arg) h) ∧
  (∀ f, (b = false → returns f h) →
     returns (OptionType.unwrapOrElse this f) h ∧
     returns (OptionType.orElse this f) h ∧
     returns (OptionType.okOrElse this f) h) ∧
  (∀ f, (b = true → returns (f v) h) →
     returns (OptionType.andThen this f) h ∧
     returns (OptionType.map this f) h ∧
     ∀ def, returns (OptionType.mapOr this def f) h) ∧
  (∀ def f, (if b then returns (f v) h else returns def h) →
     returns (OptionType.mapOrElse this def f) h) ∧
  (∀ val,
     returns (Some_ val) h ∧ returns (Option.from val) h ∧
     returns (Option val) h ∧ returns (Option.is_ val) h) ∧
  (∀ fn args, returns (Option.safe fn args) h) ∧
  (∀ xs, Forall (is_instance h) xs →
     returns (Option.all xs) h ∧ returns (Option.any xs) h).
Proof.
  intros Ha this. unfold this. clear this. split_and!.
  - intros cmp. by apply is_run with v b.
  - intros cmp. by apply is_run with v b.
  - intros cmp Hnull Hundef.
    destruct (eq_neq_run _ _ _ _ _ Ha Hnull Hundef) as (r & w & Heq & Hneq & _).
    split; by eexists _, _.
  - intros cmp Hnull Hundef Hcmp.
    destruct (eq_neq_run _ _ _ _ _ Ha Hnull Hundef) as (r & w & -> & -> & Hr).
    rewrite (Hr Hcmp). by destruct b.
  - returns_at Ha.
  - exists (VBool b), h. by apply isSome_run with v.
  - returns_at Ha.
  - exists v, h. by apply unwrapUnchecked_run with b.
  - intros arg. split_and!; returns_at Ha.
  - intros f Hf. split_and!; returns_at Ha; try by apply Hf.
    destruct Hf as (e & h' & Hf); [done|].
    rewrite (bind_Normal _ _ _ _ _ Hf). by eexists _, _.
  - intros f Hf. split_and!; try intros def; returns_at Ha; try by apply Hf.
    destruct Hf as (u & h' & Hf); [done|].
    rewrite (bind_Normal _ _ _ _ _ Hf). by eexists _, _.
  - intros def f Hf. returns_at Ha; apply Hf.
  - intros val. split_and!; try by eexists _, _.
    + unfold Option.from. destruct (_ || _); by eexists _, _.
    + unfold Option, Option.from. destruct (_ || _); by eexists _, _.
  - intros fn args. apply safe_returns.
  - intros xs Hxs. split; [by apply all_returns | by apply any_returns].
Qed.

(** C2 on [Some(20)] compared with the number [20]: [eq] returns false,
    it does not throw. *)
Lemma total_but_for_null_and_callbacks_witness :
  OptionType.eq (VRef 1) (VNumber (Num 20)) scenario_heap
  = (Normal (VBool false), scenario_heap).
Proof.
  refine (proj1 (proj1 (proj2 (proj2 (proj2
    (total_but_for_null_and_callbacks scenario_heap 1 (VNumber (Num 20)) true
       _))))
    (VNumber (Num 20)) _ _ _)).
  - reflexivity.
  - discriminate.
  - discriminate.
  - intros (a & v & b & Heq & _). discriminate Heq.
Defined.


(** * Further properties of the module *)

(** ** The remaining methods at a receiver that is an instance *)

Section Observers.
Context (h : heap) (a : addr) (v : value) (b : bool).
Hypothesis Hthis : h !! a = Some (OOption v b).

Lemma into_run :
  OptionType.into (VRef a) h = (Normal (if b then v else VNull), h).
Proof. autounfold with methods. by destruct b; on_receiver Hthis. Qed.

Lemma isNone_run : OptionType.isNone (VRef a) h = (Normal (VBool (negb b)), h).
Proof. autounfold with methods. by destruct b; on_receiver Hthis. Qed.

Lemma unwrapOr_run def :
  OptionType.unwrapOr (VRef a) def h = (Normal (if b then v else def), h).
Proof. autounfold with methods. by destruct b; on_receiver Hthis. Qed.

Lemma or_run optb :
  OptionType.or (VRef a) optb h = (Normal (if b then VRef a else optb), h).
Proof. autounfold with methods. by destruct b; on_receiver Hthis. Qed.


Lemma okOr_run err :
  OptionType.okOr (VRef a) err h = if b then Ok v h else Err err h.
Proof. autounfold with methods. by destruct b; on_receiver Hthis. Qed.

Lemma is_instances c w d :
  h !! c = Some (OOption w d) →
  OptionType.is_ (VRef a) (VRef c) h = (Normal (VBool (bool_decide (b = d))), h).
Proof.
  intros Hc. unfold OptionType.is_.
  rewrite (bind_Normal _ _ _ _ _ (instanceof_instance _ _ _ _ Hc)).
  by rewrite (on_Is _ _ _ _ _ Hthis), (on_Is _ _ _ _ _ Hc).
Qed.

End Observers.

Lemma bind_Throw {A B} (m : M A) (k : A → M B) h e h' :
  m h = (Throw e, h') → (m ≫= k) h = (Throw e, h').
Proof. unfold mbind, M_bind. by intros ->. Qed.

Lemma strict_eq_sym x y : strict_eq x y = strict_eq y x.
Proof.
  destruct x as [| | |[|?]| |], y as [| | |[|?]| |]; simpl; try done;
    apply bool_decide_ext; split; congruence.
Qed.

Lemma option_in_instance h x v b :
  option_in h x v b → ∃ a, x = VRef a ∧ h !! a = Some (OOption v b).
Proof. intros [a v' Ha|Hnone]; [by exists a | by exists none_addr]. Qed.

(** ** The discriminant tests and the comparisons *)

(** X1: of [isSome()] and [isNone()], exactly one is true, at every
    Option, and neither changes the heap. *)
Theorem isSome_isNone_exclusive h a v b :
  h !! a = Some (OOption v b) →
  ∃ s n,
    OptionType.isSome (VRef a) h = (Normal (VBool s), h) ∧
    OptionType.isNone (VRef a) h = (Normal (VBool n), h) ∧
    xorb s n = true.
Proof.
  intros Ha. exists b, (negb b).
  rewrite (isSome_run _ _ _ _ Ha), (isNone_run _ _ _ _ Ha).
  by destruct b.
Qed.

Lemma isSome_isNone_exclusive_witness :
  ∃ s n,
    OptionType.isSome None_ init_heap = (Normal (VBool s), init_heap) ∧
    OptionType.isNone None_ init_heap = (Normal (VBool n), init_heap) ∧
    xorb s n = true.
Proof.
  refine (isSome_isNone_exclusive init_heap none_addr VUndefined false _).
  reflexivity.
Defined.

(** X2: [neq] is the negation of [eq], at every Option and for every
    argument that [eq] accepts (all but [null] and [undefined]), Option
    or not. *)
Theorem neq_negates_eq h a v b cmp :
  h !! a = Some (OOption v b) → cmp ≠ VNull → cmp ≠ VUndefined →
  ∃ r,
    OptionType.eq (VRef a) cmp h = (Normal (VBool r), h) ∧
    OptionType.neq (VRef a) cmp h = (Normal (VBool (negb r)), h).
Proof.
  intros Ha Hnull Hundef.
  destruct (eq_neq_run _ _ _ _ _ Ha Hnull Hundef) as (r & w & -> & -> & _).
  eexists. split; [done|]. by rewrite negb_andb.
Qed.

Lemma neq_negates_eq_witness :
  ∃ r,
    OptionType.eq (VRef 1) (VRef 2) scenario_heap
      = (Normal (VBool r), scenario_heap) ∧
    OptionType.neq (VRef 1) (VRef 2) scenario_heap
      = (Normal (VBool (negb r)), scenario_heap).
Proof.
  refine (neq_negates_eq scenario_heap 1 (VNumber (Num 20)) true (VRef 2)
            _ _ _); [reflexivity | discriminate | discriminate].
Defined.

(** X3: between Options, [eq] is symmetric, it is true exactly when the
    discriminants agree and the payloads are [===], and whenever it is
    true so is [is]. *)
Theorem eq_symmetric_and_finer_than_is h a1 v1 b1 a2 v2 b2 :
  h !! a1 = Some (OOption v1 b1) → h !! a2 = Some (OOption v2 b2) →
  OptionType.eq (VRef a1) (VRef a2) h = OptionType.eq (VRef a2) (VRef a1) h ∧
  (OptionType.eq (VRef a1) (VRef a2) h = (Normal (VBool true), h)
   ↔ b1 = b2 ∧ strict_eq v1 v2 = true) ∧
  (OptionType.eq (VRef a1) (VRef a2) h = (Normal (VBool true), h) →
   OptionType.is_ (VRef a1) (VRef a2) h = (Normal (VBool true), h)).
Proof.
  intros H1 H2.
  rewrite (eq_run _ _ _ _ _ _ _ H1 H2), (eq_run _ _ _ _ _ _ _ H2 H1).
  rewrite (is_instances _ _ _ _ H1 _ _ _ H2).
  assert (Hiff : bool_decide (b1 = b2) && strict_eq v1 v2 = true
                 ↔ b1 = b2 ∧ strict_eq v1 v2 = true).
  { rewrite andb_true_iff, bool_decide_eq_true. done. }
  split_and!.
  - rewrite (strict_eq_sym v1 v2). do 4 f_equal.
    apply bool_decide_ext. split; congruence.
  - rewrite <- Hiff. split; [by intros [= ->] | by intros ->].
  - intros [= Heq]. apply Hiff in Heq as [-> _].
    by rewrite bool_decide_eq_true_2.
Qed.

Lemma eq_symmetric_and_finer_than_is_witness :
  OptionType.eq (VRef 1) (VRef 2) scenario_heap
  = OptionType.eq (VRef 2) (VRef 1) scenario_heap.
Proof.
  refine (proj1 (eq_symmetric_and_finer_than_is scenario_heap
            1 (VNumber (Num 20)) true 2 (VNumber (Num 30)) true _ _));
    reflexivity.
Defined.



(** ** Extraction *)

(** X5: on [None], [into()] gives [null] and [unwrapUnchecked()] gives
    [undefined]; on a [Some] both give the payload, so [into()] does not
    tell [Some(null)] from [None].  Neither throws nor changes the
    heap. *)
Theorem into_null_unwrapUnchecked_undefined h :
  loaded h →
  OptionType.into None_ h = (Normal VNull, h) ∧
  OptionType.unwrapUnchecked None_ h = (Normal VUndefined, h) ∧
  (∀ a v, h !! a = Some (OOption v true) →
     OptionType.into (VRef a) h = (Normal v, h) ∧
     OptionType.unwrapUnchecked (VRef a) h = (Normal v, h)).
Proof.
  intros Hnone. split_and!.
  - exact (into_run _ _ _ _ Hnone).
  - exact (unwrapUnchecked_run _ _ _ _ Hnone).
  - intros a v Ha.
    by rewrite (into_run _ _ _ _ Ha), (unwrapUnchecked_run _ _ _ _ Ha).
Qed.

Lemma into_null_unwrapUnchecked_undefined_witness :
  OptionType.into None_ init_heap = (Normal VNull, init_heap).
Proof.
  refine (proj1 (into_null_unwrapUnchecked_undefined init_heap _)).
  reflexivity.
Defined.

(** X6: [Some(v)] holds [v] whatever [v] is, [null], [undefined] and
    [NaN] included: it is a [Some], and [unwrap()], [expect(msg)],
    [unwrapOr(def)], [unwrapUnchecked()] and [into()] all give [v] back.
    One instance is allocated and nothing else. *)
Theorem Some_then_unwrap h v :
  let h1 := <[fresh_addr h := OOption v true]> h in
  (x ← Some_ v; OptionType.isSome x) h = (Normal (VBool true), h1) ∧
  (x ← Some_ v; OptionType.unwrap x) h = (Normal v, h1) ∧
  (∀ msg, (x ← Some_ v; OptionType.expect x msg) h = (Normal v, h1)) ∧
  (∀ def, (x ← Some_ v; OptionType.unwrapOr x def) h = (Normal v, h1)) ∧
  (x ← Some_ v; OptionType.unwrapUnchecked x) h = (Normal v, h1) ∧
  (x ← Some_ v; OptionType.into x) h = (Normal v, h1).
Proof.
  intros h1.
  assert (Hx : h1 !! fresh_addr h = Some (OOption v true))
    by apply lookup_insert_eq.
  assert (Hsome : Some_ v h = (Normal (VRef (fresh_addr h)), h1)) by done.
  split_and!; try intros ?; rewrite (bind_Normal _ _ _ _ _ Hsome).
  - exact (isSome_run _ _ _ _ Hx).
  - exact (expect_run _ _ _ _ Hx _).
  - exact (expect_run _ _ _ _ Hx _).
  - exact (unwrapOr_run _ _ _ _ Hx _).
  - exact (unwrapUnchecked_run _ _ _ _ Hx).
  - exact (into_run _ _ _ _ Hx).
Qed.

(** X7: [Option.from(v).unwrapOr(def)] is [def] when [v] is [null],
    [undefined] or [NaN], and [v] otherwise. *)
Theorem from_then_unwrapOr h v def :
  loaded h →
  (absent v →
     (x ← Option.from v; OptionType.unwrapOr x def) h = (Normal def, h)) ∧
  (¬ absent v →
     (x ← Option.from v; OptionType.unwrapOr x def) h =
       (Normal v, <[fresh_addr h := OOption v true]> h)).
Proof.
  intros Hnone. split; intros Hv.
  - rewrite (bind_Normal _ _ _ _ _ (from_absent h v Hv)).
    exact (unwrapOr_run _ _ _ _ Hnone _).
  - rewrite (bind_Normal _ _ _ (VRef (fresh_addr h))
               (<[fresh_addr h := OOption v true]> h)).
    + by rewrite (unwrapOr_run _ _ v true) by apply lookup_insert_eq.
    + by rewrite from_present.
Qed.

Lemma from_then_unwrapOr_witness :
  (x ← Option.from VNull; OptionType.unwrapOr x (VNumber (Num 1))) init_heap
  = (Normal (VNumber (Num 1)), init_heap).
Proof.
  refine (proj1 (from_then_unwrapOr init_heap VNull (VNumber (Num 1)) _) _).
  - reflexivity.
  - right. left. reflexivity.
Defined.

(** ** [or], [and], [andThen] *)



(** X9: [andThen] with [Some] obeys the monad laws on the nose.
    [Some(w).andThen(f)] is [f(w)]; [x.andThen(f).andThen(g)] is
    [x.andThen(v => f(v).andThen(g))] for all [f] and [g], throwing or
    not; [x.andThen(Some)] is [None] on [None] and a new [Some] of the
    same payload on a [Some]. *)
Theorem andThen_monad_laws h x v b f g :
  option_in h x v b →
  (∀ w, (s ← Some_ w; OptionType.andThen s f) h
        = f w (<[fresh_addr h := OOption w true]> h)) ∧
  (y ← OptionType.andThen x f; OptionType.andThen y g) h
    = OptionType.andThen x (λ v, y ← f v; OptionType.andThen y g) h ∧
  OptionType.andThen x Some_ h
    = if b then Some_ v h else (Normal None_, h).
Proof.
  intros Hx. split_and!.
  - intros w.
    rewrite (bind_Normal _ _ _ (VRef (fresh_addr h))
               (<[fresh_addr h := OOption w true]> h)) by done.
    by rewrite (andThen_run _ _ w true) by apply lookup_insert_eq.
  - destruct Hx as [a v Ha|Hnone].
    + rewrite (andThen_run _ _ _ _ Ha). unfold mbind at 1, M_bind at 1.
      by rewrite (andThen_run _ _ _ _ Ha).
    + rewrite (bind_Normal _ _ _ None_ h)
        by exact (andThen_run _ _ _ _ Hnone _).
      unfold None_.
      by rewrite !(andThen_run _ _ _ _ Hnone).
  - apply option_in_instance in Hx as (a & -> & Ha).
    by rewrite (andThen_run _ _ _ _ Ha).
Qed.

Lemma andThen_monad_laws_witness :
  OptionType.andThen (VRef 1) Some_ scenario_heap
  = Some_ (VNumber (Num 20)) scenario_heap.
Proof.
  refine (proj2 (proj2 (andThen_monad_laws scenario_heap
            (VRef 1) (VNumber (Num 20)) true Some_ Some_ _))).
  constructor. reflexivity.
Defined.

(** ** [map] and its relatives *)

(** X10: [x.map(f)] is [x.andThen(v => Some(f(v)))]; [x.mapOr(def, f)]
    gives what [x.map(f).unwrapOr(def)] gives, and
    [x.mapOrElse(def, f)] what [x.map(f).unwrapOrElse(def)] gives, value
    or exception alike (the detour through [map] costs one instance). *)
Theorem map_factorisations h x v b f def d :
  option_in h x v b →
  OptionType.map x f h = OptionType.andThen x (λ v, u ← f v; Some_ u) h ∧
  fst ((y ← OptionType.map x f; OptionType.unwrapOr y def) h)
    = fst (OptionType.mapOr x def f h) ∧
  fst ((y ← OptionType.map x f; OptionType.unwrapOrElse y d) h)
    = fst (OptionType.mapOrElse x d f h).
Proof.
  intros [a v' Ha|Hnone].
  - rewrite (andThen_run _ _ _ _ Ha), (mapOr_run _ _ _ _ Ha),
      (mapOrElse_run _ _ _ _ Ha).
    split; [exact (map_run _ _ _ _ Ha _)|].
    destruct (f v' h) as [[u|e] h1] eqn:Hf.
    + rewrite !(bind_Normal _ _ _ _ _ (map_Some _ _ _ _ _ _ Ha Hf)).
      rewrite (unwrapOr_run _ _ u true) by apply lookup_insert_eq.
      by rewrite (unwrapOrElse_run _ _ u true) by apply lookup_insert_eq.
    + assert (Hmap : OptionType.map (VRef a) f h = (Throw e, h1)).
      { rewrite (map_run _ _ _ _ Ha). by apply bind_Throw. }
      by rewrite !(bind_Throw _ _ _ _ _ Hmap).
  - unfold None_.
    rewrite (map_run _ _ _ _ Hnone), (andThen_run _ _ _ _ Hnone),
      (mapOr_run _ _ _ _ Hnone), (mapOrElse_run _ _ _ _ Hnone).
    split_and!; [done| |].
    + rewrite (bind_Normal _ _ _ None_ h)
        by exact (map_run _ _ _ _ Hnone _).
      by rewrite (unwrapOr_run _ _ _ _ Hnone).
    + rewrite (bind_Normal _ _ _ None_ h)
        by exact (map_run _ _ _ _ Hnone _).
      by rewrite (unwrapOrElse_run _ _ _ _ Hnone).
Qed.

Lemma map_factorisations_witness :
  OptionType.map (VRef 1) Some_ scenario_heap
  = OptionType.andThen (VRef 1) (λ v, u ← Some_ v; Some_ u) scenario_heap.
Proof.
  refine (proj1 (map_factorisations scenario_heap (VRef 1)
            (VNumber (Num 20)) true Some_ VNull (mret VNull) _)).
  constructor. reflexivity.
Defined.

(** X11: the function arguments that C9 leaves out.  On a [None],
    [map(f)] and [mapOr(def, f)] do not call [f], and
    [mapOrElse(def, f)] is the call [def()] and nothing more; on a
    [Some], [mapOrElse(def, f)] is the call [f(payload)] and nothing
    more, and [okOrElse(f)] does not call [f]. *)
Theorem one_function_is_called h a v b :
  h !! a = Some (OOption v b) →
  (b = false → ∀ def f,
     OptionType.map (VRef a) f h = (Normal None_, h) ∧
     (∀ d, OptionType.mapOr (VRef a) d f h = (Normal d, h)) ∧
     OptionType.mapOrElse (VRef a) def f h = def h) ∧
  (b = true → ∀ def f,
     OptionType.mapOrElse (VRef a) def f h = f v h ∧
     OptionType.okOrElse (VRef a) def h = Ok v h).
Proof.
  intros Ha. split; intros -> def f.
  - rewrite (map_run _ _ _ _ Ha), (mapOrElse_run _ _ _ _ Ha).
    split_and!; [done| |done]. intros d. by rewrite (mapOr_run _ _ _ _ Ha).
  - by rewrite (mapOrElse_run _ _ _ _ Ha), (okOrElse_run _ _ _ _ Ha).
Qed.

Lemma one_function_is_called_witness :
  OptionType.map None_ (λ _, throw VNull) init_heap = (Normal None_, init_heap).
Proof.
  refine (proj1 (proj1
    (one_function_is_called init_heap none_addr VUndefined false _) _
    (throw VNull) (λ _, throw VNull))); reflexivity.
Defined.

(** X12: each eager combinator is its lazy sibling given the function
    that returns the same value: [unwrapOr(d)] is
    [unwrapOrElse(() => d)], [or(d)] is [orElse(() => d)],
    [mapOr(d, f)] is [mapOrElse(() => d, f)] and [okOr(d)] is
    [okOrElse(() => d)]. *)
Theorem eager_is_lazy_on_a_constant h a v b d f :
  h !! a = Some (OOption v b) →
  OptionType.unwrapOr (VRef a) d h
    = OptionType.unwrapOrElse (VRef a) (mret d) h ∧
  OptionType.or (VRef a) d h = OptionType.orElse (VRef a) (mret d) h ∧
  OptionType.mapOr (VRef a) d f h
    = OptionType.mapOrElse (VRef a) (mret d) f h ∧
  OptionType.okOr (VRef a) d h = OptionType.okOrElse (VRef a) (mret d) h.
Proof.
  intros Ha.
  rewrite (unwrapOr_run _ _ _ _ Ha), (unwrapOrElse_run _ _ _ _ Ha),
    (or_run _ _ _ _ Ha), (orElse_run _ _ _ _ Ha),
    (mapOr_run _ _ _ _ Ha), (mapOrElse_run _ _ _ _ Ha),
    (okOr_run _ _ _ _ Ha), (okOrElse_run _ _ _ _ Ha).
  by destruct b.
Qed.

Lemma eager_is_lazy_on_a_constant_witness :
  OptionType.or None_ (VRef 1) scenario_heap
  = OptionType.orElse None_ (mret (VRef 1)) scenario_heap.
Proof.
  refine (proj1 (proj2 (eager_is_lazy_on_a_constant scenario_heap none_addr
            VUndefined false (VRef 1) Some_ _))); reflexivity.
Defined.

(** ** Exceptions *)

(** X13: [Option.safe(() => x.unwrap())] turns the exception of
    [unwrap] back into an Option: on a [Some] it is a new [Some] of the
    same payload, on a [None] it is [None], the [Error] that [unwrap]
    made being dropped. *)
Theorem safe_of_unwrap h a v b args :
  h !! a = Some (OOption v b) →
  Option.safe (λ _, OptionType.unwrap (VRef a)) args h =
    if b then (Normal (VRef (fresh_addr h)), <[fresh_addr h := OOption v true]> h)
    else (Normal None_,
          <[fresh_addr h :=
              OError "Error" "Failed to unwrap Option (found None)"]> h).
Proof.
  intros Ha. unfold Option.safe, try_catch, mbind, M_bind, OptionType.unwrap.
  rewrite (expect_run _ _ _ _ Ha). by destruct b.
Qed.

Lemma safe_of_unwrap_witness :
  Option.safe (λ _, OptionType.unwrap None_) [] init_heap =
    (Normal None_,
     <[fresh_addr init_heap :=
         OError "Error" "Failed to unwrap Option (found None)"]> init_heap).
Proof.
  refine (safe_of_unwrap init_heap none_addr VUndefined false [] _).
  reflexivity.
Defined.

(** X14: at every Option, [eq] and [neq] given [null] or [undefined]
    throw the runtime's [TypeError], where [is] given the same returns
    false. *)
Theorem eq_neq_throw_on_null h a v b cmp :
  h !! a = Some (OOption v b) → cmp = VNull ∨ cmp = VUndefined →
  let thrown :=
    (Throw (VRef (fresh_addr h)),
     <[fresh_addr h := ORuntimeError "TypeError"]> h) in
  OptionType.eq (VRef a) cmp h = thrown ∧
  OptionType.neq (VRef a) cmp h = thrown ∧
  OptionType.is_ (VRef a) cmp h = (Normal (VBool false), h).
Proof.
  intros Ha Hcmp thrown. unfold OptionType.eq, OptionType.neq.
  rewrite !(on_Is _ _ _ _ _ Ha).
  destruct Hcmp as [-> | ->]; split_and!; done.
Qed.

Lemma eq_neq_throw_on_null_witness :
  OptionType.is_ (VRef 1) VNull scenario_heap
  = (Normal (VBool false), scenario_heap).
Proof.
  refine (proj2 (proj2 (eq_neq_throw_on_null scenario_heap 1
            (VNumber (Num 20)) true VNull _ _))).
  - reflexivity.
  - left. reflexivity.
Defined.

(** ** Instances are frozen, and [None] stays the only one of its kind *)
























(** ** [all] and [any] as quantifiers *)

Lemma is_None_in_insert h k o x :
  (∀ v b, h !! k ≠ Some (OOption v b)) → (∀ v b, o ≠ OOption v b) →
  is_None_in (<[k := o]> h) x ↔ is_None_in h x.
Proof.
  intros Hk Ho. split; intros (a & v & -> & Ha); exists a, v; (split; [done|]).
  - destruct (decide (k = a)) as [->|Hne].
    + rewrite lookup_insert_eq in Ha. injection Ha as ->. by destruct (Ho v false).
    + by rewrite lookup_insert_ne in Ha.
  - rewrite lookup_insert_ne; [done|]. intros ->. by destruct (Hk v false).
Qed.

Lemma is_instance_insert h k o x :
  (∀ v b, h !! k ≠ Some (OOption v b)) →
  is_instance h x → is_instance (<[k := o]> h) x.
Proof.
  intros Hk (a & v & b & -> & Ha). exists a, v, b. split; [done|].
  rewrite lookup_insert_ne; [done|]. intros ->. by destruct (Hk v b).
Qed.

Lemma loaded_insert h k o :
  (∀ v b, h !! k ≠ Some (OOption v b)) → loaded h → loaded (<[k := o]> h).
Proof.
  intros Hk Hnone. unfold loaded. rewrite lookup_insert_ne; [done|].
  intros ->. by destruct (Hk VUndefined false).
Qed.

Lemma Exists_is_None_in_insert h k o xs :
  (∀ v b, h !! k ≠ Some (OOption v b)) → (∀ v b, o ≠ OOption v b) →
  Exists (is_None_in (<[k := o]> h)) xs ↔ Exists (is_None_in h) xs.
Proof.
  intros Hk Ho. split; intros Hex; eapply Exists_impl; try done;
    intros x; by apply is_None_in_insert.
Qed.

Lemma all_loop_None_iff xs :
  ∀ h arr acc,
    loaded h → h !! arr = Some (OArray acc) → Forall (is_instance h) xs →
    fst (Option.all_loop (VRef arr) xs h) = Normal None_
    ↔ Exists (is_None_in h) xs.
Proof.
  induction xs as [|x xs IH]; intros h arr acc Hnone Harr Hxs.
  - rewrite Exists_nil. split; [|done]. simpl. intros [= Hfresh].
    by apply (fresh_addr_ne _ _ _ Hnone).
  - apply Forall_cons_1 in Hxs as [(a & v & b & -> & Ha) Hxs].
    rewrite Exists_cons. destruct b.
    + assert (Hk : ∀ w d, h !! arr ≠ Some (OOption w d)) by congruence.
      rewrite (all_loop_Some h arr acc (VRef a) v); [|done|by exists a].
      rewrite (IH _ arr (acc ++ [v])).
      * rewrite Exists_is_None_in_insert by done.
        split; [by right|]. intros [(c & w & [= <-] & Hc)|]; [congruence|done].
      * by apply loaded_insert.
      * apply lookup_insert_eq.
      * eapply Forall_impl; [done|]. intros. by apply is_instance_insert.
    + rewrite all_loop_None by (by exists a, v).
      split; [|done]. intros _. left. by exists a, v.
Qed.

Lemma any_None_iff xs h :
  loaded h → Forall (is_instance h) xs →
  fst (Option.any xs h) = Normal None_ ↔ Forall (is_None_in h) xs.
Proof.
  intros Hnone. induction 1 as [|x xs (a & v & b & -> & Ha) _ IH].
  - split; [constructor | done].
  - rewrite Forall_cons. destruct b.
    + rewrite (any_takes_Some h (VRef a) v) by (by exists a). simpl. split.
      * intros [= ->]. unfold loaded in Hnone. congruence.
      * intros [(c & w & [= <-] & Hc) _]. congruence.
    + rewrite any_skips_None by (by exists a, v). rewrite IH.
      split; [|by intros [_ ?]]. split; [by exists a, v | done].
Qed.

(** X16: on Options, [Option.all] returns [None] exactly when one of
    its arguments is a [None], and [Option.any] returns [None] exactly
    when all of its arguments are. *)
Theorem all_any_are_quantifiers h xs :
  loaded h → Forall (is_instance h) xs →
  (fst (Option.all xs h) = Normal None_ ↔ Exists (is_None_in h) xs) ∧
  (fst (Option.any xs h) = Normal None_ ↔ Forall (is_None_in h) xs).
Proof.
  intros Hnone Hxs. split; [|by apply any_None_iff].
  assert (Hk : ∀ v b, h !! fresh_addr h ≠ Some (OOption v b))
    by (intros v b; by rewrite fresh_addr_None).
  change (Option.all xs h)
    with (Option.all_loop (VRef (fresh_addr h)) xs
            (<[fresh_addr h := OArray []]> h)).
  rewrite (all_loop_None_iff xs _ _ []).
  - by apply Exists_is_None_in_insert.
  - by apply loaded_insert.
  - apply lookup_insert_eq.
  - eapply Forall_impl; [done|]. intros. by apply is_instance_insert.
Qed.

Lemma all_any_are_quantifiers_witness :
  fst (Option.all [VRef 1; None_; VRef 2] scenario_heap) = Normal None_
  ↔ Exists (is_None_in scenario_heap) [VRef 1; None_; VRef 2].
Proof.
  refine (proj1 (all_any_are_quantifiers scenario_heap
            [VRef 1; None_; VRef 2] _ _)).
  - reflexivity.
  - repeat constructor.
    + exists 1, (VNumber (Num 20)), true. split; reflexivity.
    + exists none_addr, VUndefined, false. split; reflexivity.
    + exists 2, (VNumber (Num 30)), true. split; reflexivity.
Defined.

(** ** [eq] looks one level deep *)

(** X17: two Options made by two calls of [Some(v)] are two objects,
    never [===], and yet [eq] to each other as soon as [v] is [===] to
    itself (that is, unless [v] is [NaN]).  One level further the
    identity of the inner objects shows: [Some(Some(v))] is never [eq]
    to another [Some(Some(v))]. *)
Theorem eq_is_shallow h v :
  fst ((a ← Some_ v; b ← Some_ v; r ← OptionType.eq a b;
        mret (strict_eq a b, r)) h)
    = Normal (false, VBool (strict_eq v v)) ∧
  fst ((a ← Some_ v; b ← Some_ v; a' ← Some_ a; b' ← Some_ b;
        OptionType.eq a' b') h)
    = Normal (VBool false).
Proof.
  set (a := fresh_addr h). set (h1 := <[a := OOption v true]> h).
  set (b := fresh_addr h1). set (h2 := <[b := OOption v true]> h1).
  set (a' := fresh_addr h2). set (h3 := <[a' := OOption (VRef a) true]> h2).
  set (b' := fresh_addr h3). set (h4 := <[b' := OOption (VRef b) true]> h3).
  assert (Hab : a ≠ b).
  { intros Heq. symmetry in Heq. revert Heq.
    eapply fresh_addr_ne. apply lookup_insert_eq. }
  assert (Ha'b' : b' ≠ a') by (eapply fresh_addr_ne; apply lookup_insert_eq).
  assert (Hb2 : h2 !! b = Some (OOption v true)) by apply lookup_insert_eq.
  assert (Ha2 : h2 !! a = Some (OOption v true)).
  { unfold h2. rewrite lookup_insert_ne by done. apply lookup_insert_eq. }
  assert (Hb4 : h4 !! b' = Some (OOption (VRef b) true))
    by apply lookup_insert_eq.
  assert (Ha4 : h4 !! a' = Some (OOption (VRef a) true)).
  { unfold h4. rewrite lookup_insert_ne by done. apply lookup_insert_eq. }
  assert (Hdiff : strict_eq (VRef a) (VRef b) = false)
    by (by apply bool_decide_eq_false_2; intros [= ?]).
  split.
  - rewrite (bind_Normal _ _ _ (VRef a) h1) by done.
    rewrite (bind_Normal _ _ _ (VRef b) h2) by done.
    rewrite (bind_Normal _ _ _ _ _ (eq_run _ _ _ _ _ _ _ Ha2 Hb2)).
    by rewrite Hdiff.
  - rewrite (bind_Normal _ _ _ (VRef a) h1) by done.
    rewrite (bind_Normal _ _ _ (VRef b) h2) by done.
    rewrite (bind_Normal _ _ _ (VRef a') h3) by done.
    rewrite (bind_Normal _ _ _ (VRef b') h4) by done.
    rewrite (eq_run _ _ _ _ _ _ _ Ha4 Hb4). by rewrite Hdiff.
Qed.

(** ** [all] and [any] touch nothing the caller holds *)











(** ** What the module hands out is an Option *)

Lemma static_is_instance h x :
  is_instance h x → Option.is_ x h = (Normal (VBool true), h).
Proof.
  intros (a & v & b & -> & Ha). unfold Option.is_.
  by rewrite (bind_Normal _ _ _ _ _ (instanceof_instance _ _ _ _ Ha)).
Qed.

Lemma static_is_other h x :
  ¬ is_instance h x → Option.is_ x h = (Normal (VBool false), h).
Proof.
  intros Hx. unfold Option.is_.
  by rewrite (bind_Normal _ _ _ _ _ (instanceof_other _ _ Hx)).
Qed.

Lemma is_instance_new h v b :
  is_instance (<[fresh_addr h := OOption v b]> h) (VRef (fresh_addr h)).
Proof. exists (fresh_addr h), v, b. split; [done | apply lookup_insert_eq]. Qed.

Lemma all_loop_gives_instance xs :
  ∀ h arr acc,
    loaded h → h !! arr = Some (OArray acc) → Forall (is_instance h) xs →
    ∃ x h', Option.all_loop (VRef arr) xs h = (Normal x, h') ∧ is_instance h' x.
Proof.
  induction xs as [|x xs IH]; intros h arr acc Hnone Harr Hxs.
  - eexists _, _. split; [done | apply is_instance_new].
  - assert (Hk : ∀ w d, h !! arr ≠ Some (OOption w d)) by congruence.
    apply Forall_cons_1 in Hxs as [(a & v & [] & -> & Ha) Hxs].
    + rewrite (all_loop_Some h arr acc (VRef a) v); [|done|by exists a].
      apply (IH _ arr (acc ++ [v])).
      * by apply loaded_insert.
      * apply lookup_insert_eq.
      * eapply Forall_impl; [done|]. intros. by apply is_instance_insert.
    + rewrite all_loop_None by (by exists a, v).
      eexists _, _. split; [done|]. by exists none_addr, VUndefined, false.
Qed.

Lemma any_gives_instance xs h :
  loaded h → Forall (is_instance h) xs →
  ∃ x, Option.any xs h = (Normal x, h) ∧ is_instance h x.
Proof.
  intros Hnone. induction 1 as [|x xs (a & v & [] & -> & Ha) _ IH].
  - eexists. split; [done|]. by exists none_addr, VUndefined, false.
  - rewrite (any_takes_Some h (VRef a) v) by (by exists a).
    eexists. split; [done|]. by exists a, v, true.
  - by rewrite any_skips_None by (by exists a, v).
Qed.

(** X19: the static [Option.is] is true of an instance and false of
    anything else, and it is true of whatever [Some], [Option.from],
    [map], [Option.safe], [Option.all] and [Option.any] return ([all]
    and [any] on Options, [safe] on a function that leaves the instances
    alone). *)
Theorem results_are_Options h :
  loaded h →
  (∀ x, Option.is_ x h = (Normal (VBool true), h) ↔ is_instance h x) ∧
  (∀ x, Option.is_ x h = (Normal (VBool false), h) ↔ ¬ is_instance h x) ∧
  (∀ v, ∃ h', (x ← Some_ v; Option.is_ x) h = (Normal (VBool true), h')) ∧
  (∀ v, ∃ h', (x ← Option.from v; Option.is_ x) h = (Normal (VBool true), h')) ∧
  (∀ x v b f r h1,
     option_in h x v b → OptionType.map x f h = (Normal r, h1) →
     Option.is_ r h1 = (Normal (VBool true), h1)) ∧
  (∀ fn args,
     respects frozen_step (fn args) →
     ∃ h', (x ← Option.safe fn args; Option.is_ x) h
           = (Normal (VBool true), h')) ∧
  (∀ xs,
     Forall (is_instance h) xs →
     (∃ h', (x ← Option.all xs; Option.is_ x) h = (Normal (VBool true), h')) ∧
     (∃ h', (x ← Option.any xs; Option.is_ x) h = (Normal (VBool true), h'))).
Proof.
  intros Hnone.
  assert (HNone : ∀ h1, loaded h1 → is_instance h1 None_)
    by (intros h1 H1; by exists none_addr, VUndefined, false).
  assert (Hsome : ∀ h1 v,
    (x ← Some_ v; Option.is_ x) h1
    = (Normal (VBool true), <[fresh_addr h1 := OOption v true]> h1)).
  { intros h1 v.
    rewrite (bind_Normal _ _ _ (VRef (fresh_addr h1))
               (<[fresh_addr h1 := OOption v true]> h1)) by done.
    apply static_is_instance, is_instance_new. }
  split_and!.
  - intros x. split; [|apply static_is_instance].
    destruct (is_instance_or_not h x) as [|Hx]; [done|].
    by rewrite static_is_other.
  - intros x. split; [|apply static_is_other].
    intros Hfalse Hx. by rewrite static_is_instance in Hfalse.
  - intros v. eexists. apply Hsome.
  - intros v. unfold Option.from. destruct (_ || _).
    + exists h. rewrite (bind_Normal _ _ _ None_ h) by done.
      by apply static_is_instance, HNone.
    + eexists. apply Hsome.
  - intros x v b f r h1 [a v' Ha|_].
    + rewrite (map_run _ _ _ _ Ha). unfold mbind, M_bind, new_OptionType, alloc.
      destruct (f v' h) as [[u|e] h2]; [|done]. intros [= <- <-].
      apply static_is_instance, is_instance_new.
    + unfold None_. rewrite (map_run _ _ _ _ Hnone). intros [= <- <-].
      by apply static_is_instance, HNone.
  - intros fn args Hfn. unfold Option.safe, try_catch.
    unfold mbind at 1, M_bind at 1, mbind at 1, M_bind at 1.
    destruct (fn args h) as [[u|e] h1] eqn:Hrun.
    + eexists. apply static_is_instance, is_instance_new.
    + exists h1. apply static_is_instance, HNone.
      by apply (Hfn _ _ _ Hrun).
  - intros xs Hxs. split.
    + assert (Hk : ∀ v b, h !! fresh_addr h ≠ Some (OOption v b))
        by (intros v b; by rewrite fresh_addr_None).
      destruct (all_loop_gives_instance xs
                  (<[fresh_addr h := OArray []]> h) (fresh_addr h) [])
        as (x & h' & Hall & Hx).
      * by apply loaded_insert.
      * apply lookup_insert_eq.
      * eapply Forall_impl; [done|]. intros. by apply is_instance_insert.
      * exists h'. rewrite (bind_Normal _ _ _ x h') by exact Hall.
        by apply static_is_instance.
    + destruct (any_gives_instance xs h Hnone Hxs) as (x & Hany & Hx).
      exists h. rewrite (bind_Normal _ _ _ _ _ Hany).
      by apply static_is_instance.
Qed.

Lemma results_are_Options_witness :
  ∃ h', (x ← Option.all [VRef 1; VRef 2]; Option.is_ x) scenario_heap
        = (Normal (VBool true), h').
Proof.
  refine (proj1 (proj2 (proj2 (proj2 (proj2 (proj2 (proj2
            (results_are_Options scenario_heap _))))))
            [VRef 1; VRef 2] _)).
  - reflexivity.
  - repeat constructor.
    + exists 1, (VNumber (Num 20)), true. split; reflexivity.
    + exists 2, (VNumber (Num 30)), true. split; reflexivity.
Defined.
